(** * closer: a shallow embedding of [closer.go]

    The package keeps one process-wide [closer] (the variable [gC]): a stack
    of clean-up callables, a lazily created signal channel and the goroutine
    that waits on it.  [Defer] registers a batch of callables and hands back a
    closure that cleans up that batch; [Exit] and the signal goroutine clean
    up the whole stack and end the process.

    Modelling decisions
    - A Go [int] is a [Z]; the package never computes with exit codes, it
      only compares one with [-1] and passes them on.
    - A callable is a function on the part of the program state it can
      reach (the package variables and the caller's own state, a [World])
      that either returns or panics.  Callables that do not return, that
      end the process themselves or that call back into the package while
      the mutex is held (a deadlock) are outside the model; so is an
      [OnError] callback that panics.
    - The value a panic carries is the one [recover()] hands back, which is
      not nil here: since Go 1.21 [panic(nil)] is recovered as a
      [*runtime.PanicNilError], an [error].
    - Every operation holds [c.Lock()] around its critical section; an
      operation is one atomic step of the model.
    - Slices are lists.  The array behind [cfs] in [deferFuncs] is captured
      by the returned closure and is a cell of [arrays]; [append] copies its
      elements into the array behind [c.closers].
    - [log] is ghost state: it records every call of a callable and every
      call of [OnError], in order. *)

From Stdlib Require Import ZArith String List Lia.
From stdpp Require Import base option list strings.
Import ListNotations.
Local Open Scope Z_scope.

(** The types the package is generic in: the caller's own state, the names of
    the functions that may be stored in [OnError], dynamic values that are
    neither strings nor errors, and error implementations of the caller. *)
Class GoTypes := {
  UserState : Type;
  SinkRef : Type;
  Opaque : Type;
  UserError : Type
}.

Section Model.
Context {GT : GoTypes}.

(** [error]: what [errors.New] and [fmt.Errorf] build, run-time errors, and
    the caller's own implementations. *)
Inductive error :=
  | ErrorString (msg : string)
  | RuntimeError (msg : string)
  | OtherError (e : UserError).

(** An [interface{}] value, by dynamic type. *)
Inductive value :=
  | VString (s : string)
  | VError (e : error)
  | VOpaque (v : Opaque).

(** [os.Signal]: a [syscall.Signal] is a number; other implementations of the
    interface are possible. *)
Inductive os_Signal :=
  | syscall_Signal (n : Z)
  | other_Signal (v : Opaque).

Definition SIGHUP := syscall_Signal 1.
Definition SIGINT := syscall_Signal 2.
Definition SIGTERM := syscall_Signal 15.

(** The package variables (lines 12-27) next to the caller's state. *)
Record World := mkWorld {
  user : UserState;
  ExitWithSignalCode : bool;
  ExitCodeOk : Z;
  ExitCodeErr : Z;
  DefaultSignals : list os_Signal;
  OnError : option SinkRef
}.

Inductive outcome (R : Type) :=
  | Returns (r : R)
  | Panic (p : value).
Arguments Returns {R} r.
Arguments Panic {R} p.

(** [func()] and [func() error]; a [nil] error is [None]. *)
Definition Func := World -> outcome unit * World.
Definition ErrFunc := World -> outcome (option error) * World.

(** What the text formatting of [fmt] and the functions named by [SinkRef]
    do. *)
Class Runtime := {
  fmt_opaque : Opaque -> string;
  Error_text : UserError -> string;
  sinkBody : SinkRef -> error -> World -> World
}.
Context {RT : Runtime}.

Definition Error (e : error) : string :=
  match e with
  | ErrorString msg => msg
  | RuntimeError msg => msg
  | OtherError u => Error_text u
  end.

(** The verb [%v]. *)
Definition fmt_v (p : value) : string :=
  match p with
  | VString s => s
  | VError e => Error e
  | VOpaque v => fmt_opaque v
  end.

Definition Errorf_panic (p : value) : error :=
  ErrorString ("panic: " +:+ fmt_v p).

(** Lines 38-44: the deferred function of [exec], given the recovered
    value. *)
Definition recovered (p : value) : error :=
  match p with
  | VError perr => perr
  | _ => Errorf_panic p
  end.

Inductive event :=
  | Ran (f : ErrFunc) (err : option error)
  | Reported (k : SinkRef) (err : error).

(** The state a clean-up pass works on. *)
Record Mem := mkMem {
  world : World;
  log : list event
}.

Record closerFunc := mkCloserFunc {
  fn : option ErrFunc
}.

(** Lines 33-48.  In [err, cf.fn = cf.fn(), nil] the call is evaluated before
    either assignment is carried out, so a panic leaves [cf.fn] as it
    was. *)
Definition exec (cf : closerFunc) (m : Mem) : option error * closerFunc * Mem :=
  match fn cf with
  | None => (None, cf, m)
  | Some f =>
      match f (world m) with
      | (Returns err, w) =>
          (err, mkCloserFunc None, mkMem w (log m ++ [Ran f err]))
      | (Panic p, w) =>
          let err := Some (recovered p) in
          (err, cf, mkMem w (log m ++ [Ran f err]))
      end
  end.

(** Line 50. *)
Abbreviation closerFuncs := (list closerFunc).

(** Lines 57-59. *)
Definition report (err : error) (m : Mem) : Mem :=
  match OnError (world m) with
  | None => m
  | Some k => mkMem (sinkBody k err (world m)) (log m ++ [Reported k err])
  end.

(** Lines 54-61: the loop, [n] being [i + 1].  [None] is the run-time panic
    of an index out of range. *)
Fixpoint cleanup_from (n : nat) (cfs : closerFuncs) (errored : bool) (m : Mem)
    : option (bool * closerFuncs * Mem) :=
  match n with
  | O => Some (errored, cfs, m)
  | S i =>
      match cfs !! i with
      | None => None
      | Some cf =>
          let '(err, cf', m1) := exec cf m in
          let cfs1 := <[i := cf']> cfs in
          match err with
          | None => cleanup_from i cfs1 errored m1
          | Some e => cleanup_from i cfs1 true (report e m1)
          end
      end
  end.

(** Lines 52-63. *)
Definition cleanup (cfs : closerFuncs) (m : Mem) : option (bool * closerFuncs * Mem) :=
  cleanup_from (length cfs) cfs false m.

(** One pass written by recursion on the slice: the tail is cleaned up
    first, then the head.  [cleanup_sweep] below shows it is what [cleanup]
    computes. *)
Fixpoint sweep (cfs : closerFuncs) (m : Mem) : bool * closerFuncs * Mem :=
  match cfs with
  | [] => (false, [], m)
  | cf :: rest =>
      let '(errored, rest', m1) := sweep rest m in
      let '(err, cf', m2) := exec cf m1 in
      match err with
      | None => (errored, cf' :: rest', m2)
      | Some e => (true, cf' :: rest', report e m2)
      end
  end.

(** Lines 65-70.  [sigCh] is [None] for the nil channel and otherwise holds
    the signals queued in it; [onceDone] is the [sync.Once]. *)
Record closer := mkCloser {
  sigCh : option (list os_Signal);
  closers : closerFuncs;
  onceDone : bool
}.

(** The process: [arrays] are the arrays captured by the closures that
    [deferFuncs] returned, [handlers] is what package [os/signal] has
    registered for the channel (one entry per [Notify] since the last
    [Stop]), [listeners] counts the goroutines running [waitForSignal]. *)
Record Process := mkProcess {
  mem : Mem;
  gC : closer;
  arrays : list closerFuncs;
  handlers : list (list os_Signal);
  listeners : nat
}.

Definition set_mem (m : Mem) (s : Process) : Process :=
  mkProcess m (gC s) (arrays s) (handlers s) (listeners s).
Definition set_gC (c : closer) (s : Process) : Process :=
  mkProcess (mem s) c (arrays s) (handlers s) (listeners s).
Definition set_arrays (a : list closerFuncs) (s : Process) : Process :=
  mkProcess (mem s) (gC s) a (handlers s) (listeners s).
Definition set_handlers (h : list (list os_Signal)) (s : Process) : Process :=
  mkProcess (mem s) (gC s) (arrays s) h (listeners s).
Definition set_listeners (n : nat) (s : Process) : Process :=
  mkProcess (mem s) (gC s) (arrays s) (handlers s) n.

Definition set_sigCh (ch : option (list os_Signal)) (s : Process) : Process :=
  set_gC (mkCloser ch (closers (gC s)) (onceDone (gC s))) s.
Definition set_closers (cfs : closerFuncs) (s : Process) : Process :=
  set_gC (mkCloser (sigCh (gC s)) cfs (onceDone (gC s))) s.
Definition set_onceDone (b : bool) (s : Process) : Process :=
  set_gC (mkCloser (sigCh (gC s)) (closers (gC s)) b) s.

(** How a call ends: it returns, it panics, it ends the process through
    [os.Exit], or it blocks. *)
Inductive result (A : Type) :=
  | Done (a : A) (s : Process)
  | Panics (p : value) (s : Process)
  | Exits (code : Z) (s : Process)
  | Blocks (s : Process).
Arguments Done {A} a s.
Arguments Panics {A} p s.
Arguments Exits {A} code s.
Arguments Blocks {A} s.

Definition after {A} (r : result A) : Process :=
  match r with
  | Done _ s | Panics _ s | Exits _ s | Blocks s => s
  end.

Definition index_out_of_range : value :=
  VError (RuntimeError "index out of range").
Definition nil_dereference : value :=
  VError (RuntimeError "invalid memory address or nil pointer dereference").

(** Package [os/signal], for the one channel the package owns. *)
Definition signal_Notify (signals : list os_Signal) (s : Process) : Process :=
  set_handlers (handlers s ++ [signals]) s.
Definition signal_Stop (s : Process) : Process :=
  set_handlers [] s.

(** Line 118. *)
Definition go_waitForSignal (s : Process) : Process :=
  set_listeners (S (listeners s)) s.

(** Lines 110-126. *)
Definition reinit (force : bool) (signals : list os_Signal) (s : Process) : Process :=
  let signals :=
    if (length signals =? 0)%nat then DefaultSignals (world (mem s)) else signals in
  match sigCh (gC s) with
  | None => signal_Notify signals (go_waitForSignal (set_sigCh (Some []) s))
  | Some _ =>
      if negb force then s
      else signal_Notify signals (signal_Stop s)
  end.

(** Lines 130-133. *)
Definition get (s : Process) : Process :=
  if onceDone (gC s) then s else set_onceDone true (reinit false [] s).

(** Lines 138-140. *)
Definition SetSignals (signals : list os_Signal) (s : Process) : result unit :=
  Done tt (reinit true signals s).

(** An argument of [Defer], by the case of the type switch it takes.  A
    function value may be nil ([None]); [A_Closer] carries the method value
    [fn.Close]; [A_other] is a value of any other dynamic type, or the nil
    interface ([None]). *)
Inductive arg :=
  | A_func (f : option Func)
  | A_func_error (f : option ErrFunc)
  | A_Closer (Close : ErrFunc)
  | A_other (v : option value).

(** Line 91: [func() error { fn(); return nil }]. *)
Definition wrap_func (f : option Func) : ErrFunc :=
  fun w =>
    match f with
    | None => (Panic nil_dereference, w)
    | Some g =>
        match g w with
        | (Returns _, w') => (Returns None, w')
        | (Panic p, w') => (Panic p, w')
        end
    end.

(** Lines 89-98: one round of the type switch; [None] is the [default]
    case. *)
Definition convert (a : arg) : option closerFunc :=
  match a with
  | A_func f => Some (mkCloserFunc (Some (wrap_func f)))
  | A_func_error f => Some (mkCloserFunc f)
  | A_Closer c => Some (mkCloserFunc (Some c))
  | A_other _ => None
  end.

Definition unsupported : value :=
  VString "supported closers: func(), func() error and io.Closer".

(** Lines 103-107, the closure returned by [deferFuncs]; [h] names the
    array it captured. *)
Definition trigger (h : nat) (s : Process) : result unit :=
  match arrays s !! h with
  | None => Done tt s
  | Some cfs =>
      match cleanup cfs (mem s) with
      | None => Panics index_out_of_range s
      | Some (_, cfs', m') =>
          Done tt (set_arrays (<[h := cfs']> (arrays s)) (set_mem m' s))
      end
  end.

(** Lines 85-108. *)
Definition deferFuncs (fns : list arg) (s : Process) : result nat :=
  match mapM convert fns with
  | None => Panics unsupported s
  | Some cfs =>
      Done (length (arrays s))
           (set_arrays (arrays s ++ [cfs])
              (set_closers (closers (gC s) ++ cfs) s))
  end.

(** Lines 148-150. *)
Definition Defer (fns : list arg) (s : Process) : result nat :=
  deferFuncs fns (get s).

(** Lines 154-167. *)
Definition Exit (code : Z) (s : Process) : result unit :=
  let c := get s in
  match cleanup (closers (gC c)) (mem c) with
  | None => Panics index_out_of_range c
  | Some (erred, cfs', m') =>
      let c' := set_closers cfs' (set_mem m' c) in
      if negb (code =? -1) then Exits code c'
      else if erred then Exits (ExitCodeErr (world m')) c'
      else Exits (ExitCodeOk (world m')) c'
  end.

(** Lines 72-83: one round of the loop of the listening goroutine. *)
Definition waitForSignal (s : Process) : result unit :=
  match listeners s, sigCh (gC s) with
  | S _, Some (sig :: queued) =>
      let s1 := set_sigCh (Some queued) s in
      match cleanup (closers (gC s1)) (mem s1) with
      | None => Panics index_out_of_range s1
      | Some (_, cfs', m') =>
          let s2 := set_closers cfs' (set_mem m' s1) in
          match sig with
          | syscall_Signal n =>
              if ExitWithSignalCode (world m') then Exits n s2
              else Exits (ExitCodeErr (world m')) s2
          | other_Signal _ => Exits (ExitCodeErr (world m')) s2
          end
      end
  | _, _ => Blocks s
  end.

(** Package [os/signal] relaying signal number [n]: a channel registered
    without signals gets all of them, and the send does not block. *)
Definition watches (n : Z) (signals : list os_Signal) : bool :=
  (length signals =? 0)%nat
  || existsb (fun sg => match sg with
                        | syscall_Signal k => k =? n
                        | other_Signal _ => false
                        end) signals.

Definition watched (n : Z) (s : Process) : bool :=
  existsb (watches n) (handlers s).

Definition deliver (n : Z) (s : Process) : Process :=
  match sigCh (gC s) with
  | Some [] => if watched n s then set_sigCh (Some [syscall_Signal n]) s else s
  | _ => s
  end.

(** The process at start-up (lines 12-27 and 128). *)
Definition start (u : UserState) : Process :=
  mkProcess
    (mkMem (mkWorld u false 0 1 [SIGINT; SIGHUP; SIGTERM] None) [])
    (mkCloser None [] false) [] [] 0.

(** What can happen to the process: calls into the package, a signal sent
    to the process, the program assigning to its variables, and the two ways
    the package ends the process (the state is then the one [os.Exit] is
    called in).  [Defer] takes the mutex only inside [deferFuncs], so other
    goroutines may run between its call of [get] and that of [deferFuncs]:
    the two halves are steps of their own as well. *)
Inductive call :=
  | call_Defer (fns : list arg)
  | call_trigger (h : nat)
  | call_SetSignals (signals : list os_Signal)
  | call_signal (n : Z)
  | call_assign (f : World -> World)
  | call_Exit (code : Z)
  | call_listener
  | call_get
  | call_deferFuncs (fns : list arg).

Definition next (c : call) (s : Process) : Process :=
  match c with
  | call_Defer fns => after (Defer fns s)
  | call_trigger h => after (trigger h s)
  | call_SetSignals signals => after (SetSignals signals s)
  | call_signal n => deliver n s
  | call_assign f => set_mem (mkMem (f (world (mem s))) (log (mem s))) s
  | call_Exit code => after (Exit code s)
  | call_listener => after (waitForSignal s)
  | call_get => get s
  | call_deferFuncs fns => after (deferFuncs fns s)
  end.

Inductive reachable : Process -> Prop :=
  | reach_start u : reachable (start u)
  | reach_next c s : reachable s -> reachable (next c s).

(** The callables of a slice that are still to run, in slice order. *)
Definition pending (cfs : closerFuncs) : list ErrFunc := omap fn cfs.

(** The calls of callables recorded in a log. *)
Definition calls (l : list event) : list ErrFunc :=
  omap (fun e => match e with Ran f _ => Some f | Reported _ _ => None end) l.

(** The errors handed to [OnError] recorded in a log. *)
Definition reports (l : list event) : list (SinkRef * error) :=
  omap (fun e => match e with Ran _ _ => None | Reported k err => Some (k, err) end) l.

(** The errors that calls of callables ended in (returned or recovered)
    recorded in a log. *)
Definition failures (l : list event) : list error :=
  omap (fun e => match e with Ran _ err => err | Reported _ _ => None end) l.

(** The callables a call of [Defer] stores, in argument order. *)
Definition registered (fns : list arg) : list ErrFunc :=
  omap (fun a => match convert a with Some cf => fn cf | None => None end) fns.

(** What holds of the listening goroutine throughout: there is at most one,
    and none before the channel is made. *)
Definition listener_inv (s : Process) : Prop :=
  (listeners s <= 1)%nat /\ (sigCh (gC s) = None -> listeners s = 0%nat).

(** [func() { closer.ExitCodeErr = code }], the callable that [TestSignal]
    registers. *)
Definition store_ExitCodeErr (code : Z) : Func :=
  fun w => (Returns tt,
            mkWorld (user w) (ExitWithSignalCode w) (ExitCodeOk w) code
                    (DefaultSignals w) (OnError w)).

(** What holds of channel, goroutine and registration together: before the
    channel is made nothing is registered, no goroutine listens and the
    [sync.Once] has not fired; afterwards one goroutine listens and the
    channel is registered through exactly one call of [Notify]. *)
Definition subscription_inv (s : Process) : Prop :=
  match sigCh (gC s) with
  | None => listeners s = 0%nat /\ handlers s = [] /\ onceDone (gC s) = false
  | Some _ => listeners s = 1%nat /\ exists signals, handlers s = [signals]
  end.

End Model.

Abbreviation closerFuncs := (list closerFunc).

Arguments Returns {GT R} r.
Arguments Panic {GT R} p.
Arguments Done {GT A} a s.
Arguments Panics {GT A} p s.
Arguments Exits {GT A} code s.
Arguments Blocks {GT A} s.

(** * A small program state for concrete runs

    The caller's state is a list of numbers that callables append to, as the
    package's own test does with [vals]; the only function ever stored in
    [OnError] appends the number [100]. *)
Module Demo.

Definition types : GoTypes :=
  {| UserState := list Z; SinkRef := unit; Opaque := Z; UserError := Empty_set |}.
#[local] Existing Instance types.

Definition push (v : Z) (w : World) : World :=
  mkWorld (user w ++ [v]) (ExitWithSignalCode w) (ExitCodeOk w) (ExitCodeErr w)
          (DefaultSignals w) (OnError w).

Definition runtime : Runtime :=
  @Build_Runtime types
    (fun _ => "?")
    (fun e : Empty_set => match e with end)
    (fun _ _ w => push 100 w).
#[local] Existing Instance runtime.

Definition set_OnError (k : option SinkRef) (w : World) : World :=
  mkWorld (user w) (ExitWithSignalCode w) (ExitCodeOk w) (ExitCodeErr w)
          (DefaultSignals w) k.

Definition set_ExitWithSignalCode (b : bool) (w : World) : World :=
  mkWorld (user w) b (ExitCodeOk w) (ExitCodeErr w) (DefaultSignals w) (OnError w).

(** [func() { vals = append(vals, v) }] *)
Definition append_val (v : Z) : Func :=
  fun w => (Returns tt, push v w).

(** [func() error { vals = append(vals, v); return errors.New(msg) }] *)
Definition fail_with (v : Z) (msg : string) : ErrFunc :=
  fun w => (Returns (Some (ErrorString msg)), push v w).

(** [func() { vals = append(vals, v); panic(p) }] *)
Definition panic_with (v : Z) (p : value) : Func :=
  fun w => (Panic p, push v w).

(** [func() { closer.ExitCodeErr = code }], the callable of [TestSignal]. *)
Definition set_ExitCodeErr (code : Z) : Func :=
  fun w => (Returns tt,
            mkWorld (user w) (ExitWithSignalCode w) (ExitCodeOk w) code
                    (DefaultSignals w) (OnError w)).

Definition vals (s : Process) : list Z := user (world (mem s)).

Definition code_of {A} (r : result A) : option Z :=
  match r with
  | Exits code _ => Some code
  | _ => None
  end.

(** The callables of [TestCloser], in argument order. *)
Definition test_batch : list arg :=
  [A_func (Some (append_val 1)); A_func (Some (append_val 0))].

(** [func() { vals = append(vals, 7); panic("boom") }] *)
Definition boom : Func := panic_with 7 (VString "boom").

Definition entry (f : Func) : closerFunc :=
  mkCloserFunc (Some (wrap_func (Some f))).

(** The process at start-up, [vals] being empty. *)
Definition fresh : Process := @start types [].

(** A process that has registered [fns] and whose closure is number [0]. *)
Definition registering (fns : list arg) : Process :=
  after (Defer fns fresh).

(** The memory of a fresh process in which [OnError] is set. *)
Definition mem_with_sink : Mem :=
  mkMem (set_OnError (Some tt) (world (mem fresh))) [].

End Demo.

(** * Properties *)
Section Properties.
Context {GT : GoTypes} {RT : Runtime}.
Implicit Types (cf : closerFunc) (cfs : closerFuncs) (m : Mem) (s : Process)
               (f : ErrFunc) (w : World) (p : value).

(** ** [exec] *)

Lemma exec_consumed cf m : fn cf = None -> exec cf m = (None, cf, m).
Proof. intros H. unfold exec. now rewrite H. Qed.

Lemma exec_returns cf m f err w :
  fn cf = Some f -> f (world m) = (Returns err, w) ->
  exec cf m = (err, mkCloserFunc None, mkMem w (log m ++ [Ran f err])).
Proof. intros Hf Hr. unfold exec. now rewrite Hf, Hr. Qed.

Lemma exec_panics cf m f p w :
  fn cf = Some f -> f (world m) = (Panic p, w) ->
  exec cf m = (Some (recovered p), cf, mkMem w (log m ++ [Ran f (Some (recovered p))])).
Proof. intros Hf Hr. unfold exec. now rewrite Hf, Hr. Qed.

(** Whatever [exec] does, it calls the callable of a pending entry once and
    nothing else, and it never puts a callable into an entry. *)
Lemma exec_calls cf m err cf' m' :
  exec cf m = (err, cf', m') ->
  calls (log m') = calls (log m) ++ pending [cf].
Proof.
  unfold exec, pending, calls. destruct cf as [[f|]]; simpl.
  - destruct (f (world m)) as [[r|p] w]; intros [= <- <- <-]; simpl;
      rewrite omap_app; reflexivity.
  - intros [= <- <- <-]. now rewrite app_nil_r.
Qed.

Lemma exec_pending cf m err cf' m' :
  exec cf m = (err, cf', m') -> cf' = cf \/ cf' = mkCloserFunc None.
Proof.
  unfold exec. destruct cf as [[f|]]; simpl.
  - destruct (f (world m)) as [[r|p] w]; intros [= <- <- <-]; auto.
  - intros [= <- <- <-]; auto.
Qed.

(** ** The loop of [cleanup] against [sweep] *)

Lemma sweep_app cfs1 cfs2 m :
  sweep (cfs1 ++ cfs2) m =
  let '(b2, cfs2', m2) := sweep cfs2 m in
  let '(b1, cfs1', m1) := sweep cfs1 m2 in
  (b1 || b2, cfs1' ++ cfs2', m1).
Proof.
  induction cfs1 as [|cf cfs1 IH]; simpl.
  - now destruct (sweep cfs2 m) as [[b2 l2] m2].
  - rewrite IH. destruct (sweep cfs2 m) as [[b2 l2] m2].
    destruct (sweep cfs1 m2) as [[b1 l1] m1].
    destruct (exec cf m1) as [[[e|] cf'] m3]; reflexivity.
Qed.

Lemma cleanup_from_sweep cfs :
  forall rest b m,
    cleanup_from (length cfs) (cfs ++ rest) b m =
    Some (let '(b', cfs', m') := sweep cfs m in (b || b', cfs' ++ rest, m')).
Proof.
  induction cfs as [|cf cfs IH] using rev_ind; intros rest b m.
  - simpl. now rewrite orb_false_r.
  - rewrite length_app, Nat.add_1_r. cbn [cleanup_from].
    rewrite <- app_assoc. cbn [app].
    rewrite list_lookup_middle by reflexivity.
    rewrite sweep_app. cbn [sweep].
    destruct (exec cf m) as [[err cf'] m1].
    assert (Hins : <[length cfs := cf']> (cfs ++ cf :: rest) = cfs ++ cf' :: rest).
    { rewrite insert_app_r_alt by lia. now rewrite Nat.sub_diag. }
    rewrite Hins.
    destruct err as [e|]; rewrite IH.
    + destruct (sweep cfs (report e m1)) as [[b1 l1] m2].
      rewrite <- app_assoc. cbn [app].
      now rewrite !orb_true_r.
    + destruct (sweep cfs m1) as [[b1 l1] m2].
      rewrite <- app_assoc. cbn [app].
      now rewrite orb_false_r.
Qed.

(** [cleanup] never indexes out of range, and computes [sweep]. *)
Lemma cleanup_sweep cfs m : cleanup cfs m = Some (sweep cfs m).
Proof.
  unfold cleanup. rewrite <- (app_nil_r cfs) at 2.
  rewrite cleanup_from_sweep.
  destruct (sweep cfs m) as [[b l] m']. now rewrite app_nil_r.
Qed.

(** ** What one pass does *)

Lemma report_calls err m : calls (log (report err m)) = calls (log m).
Proof.
  unfold report, calls. destruct (OnError (world m)); [|reflexivity].
  simpl. rewrite omap_app. simpl. now rewrite app_nil_r.
Qed.

Lemma report_failures err m : failures (log (report err m)) = failures (log m).
Proof.
  unfold report, failures. destruct (OnError (world m)); [|reflexivity].
  simpl. rewrite omap_app. simpl. now rewrite app_nil_r.
Qed.

Lemma exec_failures cf m err cf' m' :
  exec cf m = (err, cf', m') ->
  failures (log m') = failures (log m) ++ option_list err.
Proof.
  unfold exec, failures. destruct cf as [[f|]]; simpl.
  - destruct (f (world m)) as [[r|p] w]; intros [= <- <- <-]; simpl;
      rewrite omap_app; simpl; [now destruct r | reflexivity].
  - intros [= <- <- <-]. now rewrite app_nil_r.
Qed.

Lemma exec_log cf m err cf' m' :
  exec cf m = (err, cf', m') -> exists new, log m' = log m ++ new.
Proof.
  unfold exec. destruct cf as [[f|]]; simpl.
  - destruct (f (world m)) as [[r|p] w]; intros [= <- <- <-]; simpl; eauto.
  - intros [= <- <- <-]. exists []. now rewrite app_nil_r.
Qed.

Lemma report_log err m : exists new, log (report err m) = log m ++ new.
Proof.
  unfold report. destruct (OnError (world m)); simpl; eauto.
  exists []. now rewrite app_nil_r.
Qed.

Lemma pending_cons cf cfs : pending (cf :: cfs) = pending [cf] ++ pending cfs.
Proof. unfold pending. simpl. now destruct (fn cf). Qed.

Lemma rev_pending_one cf : rev (pending [cf]) = pending [cf].
Proof. unfold pending. simpl. now destruct (fn cf). Qed.

(** The callables of the slice that are pending when the pass starts are
    called one after the other, the last of the slice first. *)
Lemma sweep_calls cfs :
  forall m b cfs' m',
    sweep cfs m = (b, cfs', m') ->
    calls (log m') = calls (log m) ++ rev (pending cfs).
Proof.
  induction cfs as [|cf cfs IH]; intros m b cfs' m'; cbn [sweep].
  - intros [= <- <- <-]. now rewrite app_nil_r.
  - destruct (sweep cfs m) as [[b1 l1] m1] eqn:Hs.
    destruct (exec cf m1) as [[err cf1] m2] eqn:He.
    specialize (IH _ _ _ _ Hs). apply exec_calls in He.
    rewrite pending_cons, rev_app_distr, rev_pending_one, app_assoc, <- IH, <- He.
    destruct err; intros [= <- <- <-]; [apply report_calls | reflexivity].
Qed.

Lemma sweep_log cfs :
  forall m b cfs' m',
    sweep cfs m = (b, cfs', m') -> exists new, log m' = log m ++ new.
Proof.
  induction cfs as [|cf cfs IH]; intros m b cfs' m'; cbn [sweep].
  - intros [= <- <- <-]. exists []. now rewrite app_nil_r.
  - destruct (sweep cfs m) as [[b1 l1] m1] eqn:Hs.
    destruct (exec cf m1) as [[err cf1] m2] eqn:He.
    destruct (IH _ _ _ _ Hs) as [n1 H1]. destruct (exec_log _ _ _ _ _ He) as [n2 H2].
    destruct err as [e|]; intros [= <- <- <-].
    + destruct (report_log e m2) as [n3 H3].
      exists (n1 ++ n2 ++ n3). rewrite H3, H2, H1. now rewrite <- !app_assoc.
    + exists (n1 ++ n2). rewrite H2, H1. now rewrite <- !app_assoc.
Qed.

(** The result of a pass is [true] exactly when a call made in it ended in
    an error. *)
Lemma sweep_errored cfs :
  forall m b cfs' m',
    sweep cfs m = (b, cfs', m') ->
    exists errs : list error,
      failures (log m') = failures (log m) ++ errs /\ (b = true <-> errs <> []).
Proof.
  induction cfs as [|cf cfs IH]; intros m b cfs' m'; cbn [sweep].
  - intros [= <- <- <-]. exists []. rewrite app_nil_r. intuition congruence.
  - destruct (sweep cfs m) as [[b1 l1] m1] eqn:Hs.
    destruct (exec cf m1) as [[err cf1] m2] eqn:He.
    destruct (IH _ _ _ _ Hs) as (errs & H1 & Hb). apply exec_failures in He.
    destruct err as [e|]; intros [= <- <- <-].
    + exists (errs ++ [e]). rewrite report_failures, He, H1, <- app_assoc.
      split; [reflexivity|]. split; [intros _|reflexivity].
      now destruct errs.
    + exists errs. rewrite He, H1. simpl. now rewrite app_nil_r.
Qed.

Lemma sweep_length cfs :
  forall m b cfs' m', sweep cfs m = (b, cfs', m') -> length cfs' = length cfs.
Proof.
  induction cfs as [|cf cfs IH]; intros m b cfs' m'; cbn [sweep].
  - now intros [= <- <- <-].
  - destruct (sweep cfs m) as [[b1 l1] m1] eqn:Hs.
    destruct (exec cf m1) as [[err cf1] m2].
    apply IH in Hs. destruct err; intros [= <- <- <-]; simpl; congruence.
Qed.

(** A slice without pending callables is left alone. *)
Lemma sweep_idle cfs m : pending cfs = [] -> sweep cfs m = (false, cfs, m).
Proof.
  induction cfs as [|cf cfs IH]; [reflexivity|].
  rewrite pending_cons. intros H. apply app_eq_nil in H as [H1 H2].
  simpl. rewrite (IH H2). rewrite exec_consumed; [reflexivity|].
  unfold pending in H1. simpl in H1. now destruct (fn cf).
Qed.

(** A pass over a slice in which entry [cf] sits between [cfs1] and [cfs2]:
    first [cfs2], then [cf], then [cfs1]. *)
Lemma sweep_middle cfs1 cf cfs2 m b2 cfs2' m2 err cf' m3 :
  sweep cfs2 m = (b2, cfs2', m2) ->
  exec cf m2 = (err, cf', m3) ->
  sweep (cfs1 ++ cf :: cfs2) m =
  let m4 := match err with Some e => report e m3 | None => m3 end in
  let '(b1, cfs1', m') := sweep cfs1 m4 in
  (b1 || (b2 || bool_decide (err <> None)), cfs1' ++ cf' :: cfs2', m').
Proof.
  intros Hs He. rewrite sweep_app. cbn [sweep]. rewrite Hs, He.
  destruct err as [e|]; simpl.
  - destruct (sweep cfs1 (report e m3)) as [[b1 l1] m']. now rewrite !orb_true_r.
  - destruct (sweep cfs1 m3) as [[b1 l1] m']. now rewrite orb_false_r.
Qed.

(** ** The operations on the process *)

Lemma get_mem s : mem (get s) = mem s.
Proof.
  unfold get, reinit. destruct (onceDone (gC s)); [reflexivity|].
  now destruct (sigCh (gC s)).
Qed.

Lemma get_closers s : closers (gC (get s)) = closers (gC s).
Proof.
  unfold get, reinit. destruct (onceDone (gC s)); [reflexivity|].
  now destruct (sigCh (gC s)).
Qed.

Lemma get_arrays s : arrays (get s) = arrays s.
Proof.
  unfold get, reinit. destruct (onceDone (gC s)); [reflexivity|].
  now destruct (sigCh (gC s)).
Qed.

Lemma convert_registered fns :
  forall cfs, mapM convert fns = Some cfs -> pending cfs = registered fns.
Proof.
  induction fns as [|a fns IH]; intros cfs; simpl.
  - now intros [= <-].
  - unfold registered. simpl. destruct (convert a) as [cf|]; [|discriminate].
    simpl. destruct (mapM convert fns) as [l|]; [|discriminate].
    simpl. intros [= <-]. rewrite pending_cons, (IH l eq_refl).
    unfold pending, registered. simpl. now destruct (fn cf).
Qed.

Lemma deferFuncs_done fns s h s1 :
  deferFuncs fns s = Done h s1 ->
  exists cfs, mapM convert fns = Some cfs /\ h = length (arrays s) /\
    s1 = set_arrays (arrays s ++ [cfs]) (set_closers (closers (gC s) ++ cfs) s).
Proof.
  unfold deferFuncs. destruct (mapM convert fns) as [cfs|]; [|discriminate].
  intros [= <- <-]. eauto.
Qed.

(** The closure works on the array it captured and on nothing else of the
    package: in particular it leaves [c.closers] as it is. *)
Lemma trigger_done h s cfs :
  arrays s !! h = Some cfs ->
  trigger h s =
  Done tt (set_arrays (<[h := (sweep cfs (mem s)).1.2]> (arrays s))
             (set_mem (sweep cfs (mem s)).2 s)).
Proof.
  intros H. unfold trigger. rewrite H, cleanup_sweep.
  now destruct (sweep cfs (mem s)) as [[b l] m'].
Qed.

Lemma trigger_closers h s : closers (gC (after (trigger h s))) = closers (gC s).
Proof.
  unfold trigger. destruct (arrays s !! h) as [cfs|]; [|reflexivity].
  rewrite cleanup_sweep. now destruct (sweep cfs (mem s)) as [[b l] m'].
Qed.

(** Once no callable of the batch is pending, the closure does nothing. *)
Lemma trigger_idle h s cfs :
  arrays s !! h = Some cfs -> pending cfs = [] -> trigger h s = Done tt s.
Proof.
  intros H Hp. rewrite (trigger_done _ _ _ H), (sweep_idle _ _ Hp). simpl.
  rewrite (list_insert_id _ _ _ H). now destruct s.
Qed.

(** Whenever the closure is called, it calls the callables still pending in
    its array, the last of the array first. *)
Lemma trigger_calls h s cfs :
  arrays s !! h = Some cfs ->
  exists s2, trigger h s = Done tt s2 /\
    calls (log (mem s2)) = calls (log (mem s)) ++ rev (pending cfs).
Proof.
  intros H. rewrite (trigger_done _ _ _ H). eexists; split; [reflexivity|].
  simpl. destruct (sweep cfs (mem s)) as [[b l] m'] eqn:Hs. simpl.
  exact (sweep_calls _ _ _ _ _ Hs).
Qed.

(** The array of the closure right after [deferFuncs]. *)
Lemma deferFuncs_array fns s h s1 :
  deferFuncs fns s = Done h s1 ->
  exists cfs, mapM convert fns = Some cfs /\ pending cfs = registered fns /\
              arrays s1 !! h = Some cfs.
Proof.
  intros HD. apply deferFuncs_done in HD as (cfs & Hc & -> & ->).
  exists cfs. split; [exact Hc|]. split; [exact (convert_registered _ _ Hc)|].
  simpl. now rewrite list_lookup_middle.
Qed.

(** C9. When one argument of [Defer] is none of [func()], [func() error] and
    [io.Closer], the call panics with the package's message; nothing of the
    batch has then been appended to [c.closers], no array is left behind for
    a closure, and no callable has been called. *)
Theorem Defer_rejects_unsupported (fns : list arg) (v : option value) s :
  In (A_other v) fns ->
  Defer fns s = Panics unsupported (get s) /\
  closers (gC (get s)) = closers (gC s) /\
  arrays (get s) = arrays s /\
  mem (get s) = mem s.
Proof.
  intros Hin. split; [|auto using get_closers, get_arrays, get_mem].
  unfold Defer, deferFuncs.
  assert (Hn : mapM convert fns = None).
  { apply mapM_None_2, Exists_exists. exists (A_other v). split; [|reflexivity].
    now apply list_elem_of_In. }
  now rewrite Hn.
Qed.

(** C5. [Exit] cleans up the whole stack, the last registered callable
    first, and then ends the process: with [code] when [code] is not [-1],
    and otherwise with [ExitCodeErr] when a call made in the pass ended in an
    error and with [ExitCodeOk] when none did. *)
Theorem Exit_code (code : Z) s :
  exists (erred : bool) cfs' m' (errs : list error),
    cleanup (closers (gC s)) (mem s) = Some (erred, cfs', m') /\
    calls (log m') = calls (log (mem s)) ++ rev (pending (closers (gC s))) /\
    failures (log m') = failures (log (mem s)) ++ errs /\
    (erred = true <-> errs <> []) /\
    Exit code s =
    Exits (if code =? -1
           then if erred then ExitCodeErr (world m') else ExitCodeOk (world m')
           else code)
          (set_closers cfs' (set_mem m' (get s))).
Proof.
  destruct (sweep (closers (gC s)) (mem s)) as [[erred cfs'] m'] eqn:Hs.
  destruct (sweep_errored _ _ _ _ _ Hs) as (errs & Hf & Hb).
  exists erred, cfs', m', errs. rewrite cleanup_sweep, Hs.
  repeat split; try tauto; try exact (sweep_calls _ _ _ _ _ Hs).
  unfold Exit. rewrite get_closers, get_mem, cleanup_sweep, Hs.
  destruct (code =? -1); simpl; [|reflexivity]. now destruct erred.
Qed.

(** C6. When the listening goroutine takes a signal from its channel it
    cleans up the whole stack and then ends the process: with the number of
    the signal when the signal is a [syscall.Signal] and
    [ExitWithSignalCode] is set, and with [ExitCodeErr] otherwise. *)
Theorem waitForSignal_code s (sig : os_Signal) (queued : list os_Signal) (k : nat) :
  listeners s = S k ->
  sigCh (gC s) = Some (sig :: queued) ->
  exists (b : bool) cfs' m',
    cleanup (closers (gC s)) (mem s) = Some (b, cfs', m') /\
    calls (log m') = calls (log (mem s)) ++ rev (pending (closers (gC s))) /\
    waitForSignal s =
    Exits (match sig with
           | syscall_Signal n =>
               if ExitWithSignalCode (world m') then n else ExitCodeErr (world m')
           | other_Signal _ => ExitCodeErr (world m')
           end)
          (set_closers cfs' (set_mem m' (set_sigCh (Some queued) s))).
Proof.
  intros Hl Hc.
  destruct (sweep (closers (gC s)) (mem s)) as [[b cfs'] m'] eqn:Hs.
  exists b, cfs', m'. rewrite cleanup_sweep, Hs.
  split; [reflexivity|]. split; [exact (sweep_calls _ _ _ _ _ Hs)|].
  unfold waitForSignal. rewrite Hl, Hc. simpl. rewrite cleanup_sweep, Hs.
  destruct sig as [n|o]; [|reflexivity].
  now destruct (ExitWithSignalCode (world m')).
Qed.

(** ** A callable that panics in the middle of a pass *)

(** The pass over [cfs1 ++ cf :: cfs2] when the callable of [cf] panics:
    the entries after [cf] have been cleaned up, the recovered value becomes
    the error of [cf], it is handed to [report], and the pass goes on with
    the entries before [cf]. *)
Lemma cleanup_at_panic cfs1 cf cfs2 m (b2 : bool) cfs2' m2 f p w :
  fn cf = Some f ->
  cleanup cfs2 m = Some (b2, cfs2', m2) ->
  f (world m2) = (Panic p, w) ->
  exists (b1 : bool) cfs1' m',
    cleanup cfs1 (report (recovered p)
                    (mkMem w (log m2 ++ [Ran f (Some (recovered p))])))
    = Some (b1, cfs1', m') /\
    cleanup (cfs1 ++ cf :: cfs2) m = Some (true, cfs1' ++ cf :: cfs2', m').
Proof.
  intros Hf Hc Hp. rewrite cleanup_sweep in Hc. injection Hc as Hc.
  pose proof (exec_panics _ _ _ _ _ Hf Hp) as He.
  pose proof (sweep_middle cfs1 _ _ _ _ _ _ _ _ _ Hc He) as Hm.
  cbn zeta in Hm. rewrite !cleanup_sweep, Hm.
  destruct (sweep cfs1 _) as [[b1 l1] m']. exists b1, l1, m'.
  split; [reflexivity|]. simpl. now rewrite !orb_true_r.
Qed.

(** C7. When a callable panics during a pass, the pass still returns; its
    result is [true]; the error made from the panic is handed to [OnError]
    when that is set; and the entries not yet visited are cleaned up as
    usual, so that every callable that was pending in the slice has been
    called once, the last of the slice first. *)
Theorem cleanup_survives_panic cfs1 cf cfs2 m (b2 : bool) cfs2' m2 f p w :
  fn cf = Some f ->
  cleanup cfs2 m = Some (b2, cfs2', m2) ->
  f (world m2) = (Panic p, w) ->
  let m3 := mkMem w (log m2 ++ [Ran f (Some (recovered p))]) in
  exists (b1 : bool) cfs1' m',
    cleanup cfs1 (report (recovered p) m3) = Some (b1, cfs1', m') /\
    cleanup (cfs1 ++ cf :: cfs2) m = Some (true, cfs1' ++ cf :: cfs2', m') /\
    (forall k, OnError w = Some k ->
       report (recovered p) m3 =
       mkMem (sinkBody k (recovered p) w) (log m3 ++ [Reported k (recovered p)])) /\
    calls (log m') = calls (log (report (recovered p) m3)) ++ rev (pending cfs1) /\
    calls (log m') = calls (log m) ++ rev (pending (cfs1 ++ cf :: cfs2)).
Proof.
  intros Hf Hc Hp m3.
  destruct (cleanup_at_panic cfs1 _ _ _ _ _ _ _ _ _ Hf Hc Hp) as (b1 & l1 & m' & H1 & H2).
  exists b1, l1, m'. repeat split; try assumption.
  - intros k Hk. unfold report. simpl. now rewrite Hk.
  - rewrite cleanup_sweep in H1. injection H1 as H1.
    exact (sweep_calls _ _ _ _ _ H1).
  - rewrite cleanup_sweep in H2. injection H2 as H2.
    exact (sweep_calls _ _ _ _ _ H2).
Qed.

(** C10. When a callable panics with a value that is an [error], that very
    value is what [OnError] is called with; a value that is not an [error]
    is replaced by the error whose text is ["panic: "] followed by the value
    as [%v] prints it. *)
Theorem panic_value_reported cfs1 cf cfs2 m (b2 : bool) cfs2' m2 f p w k :
  fn cf = Some f ->
  cleanup cfs2 m = Some (b2, cfs2', m2) ->
  f (world m2) = (Panic p, w) ->
  OnError w = Some k ->
  let err := match p with
             | VError perr => perr
             | _ => ErrorString ("panic: " +:+ fmt_v p)
             end in
  exists (b1 : bool) cfs1' m',
    cleanup cfs1 (mkMem (sinkBody k err w)
                    (log m2 ++ [Ran f (Some err); Reported k err]))
    = Some (b1, cfs1', m') /\
    cleanup (cfs1 ++ cf :: cfs2) m = Some (true, cfs1' ++ cf :: cfs2', m') /\
    In (k, err) (reports (log m')).
Proof.
  intros Hf Hc Hp Hk err.
  assert (Herr : recovered p = err) by now destruct p.
  destruct (cleanup_at_panic cfs1 _ _ _ _ _ _ _ _ _ Hf Hc Hp) as (b1 & l1 & m' & H1 & H2).
  rewrite Herr in H1. unfold report in H1. simpl in H1. rewrite Hk in H1.
  rewrite <- app_assoc in H1. simpl in H1.
  exists b1, l1, m'. split; [exact H1|]. split; [exact H2|].
  rewrite cleanup_sweep in H1. injection H1 as H1.
  destruct (sweep_log _ _ _ _ _ H1) as [new Hn]. rewrite Hn. simpl.
  unfold reports. rewrite !omap_app. simpl.
  apply in_or_app. left. apply in_or_app. right. now left.
Qed.

(** ** The listening goroutine *)

Lemma reinit_inv force (signals : list os_Signal) s :
  listener_inv s -> listener_inv (reinit force signals s).
Proof.
  unfold listener_inv, reinit. intros [H1 H2].
  destruct (sigCh (gC s)) as [q|] eqn:Hq; simpl.
  - destruct force; simpl; rewrite ?Hq; split; auto; discriminate.
  - rewrite (H2 eq_refl). split; [lia|discriminate].
Qed.

Lemma get_inv s : listener_inv s -> listener_inv (get s).
Proof.
  intros H. unfold get. destruct (onceDone (gC s)); [exact H|].
  apply (reinit_inv false []) in H. exact H.
Qed.

Lemma next_inv (c : call) s : listener_inv s -> listener_inv (next c s).
Proof.
  intros H. destruct c as [fns|h|signals|n|g|code| | |fns]; simpl.
  - apply get_inv in H. unfold Defer, deferFuncs.
    now destruct (mapM convert fns).
  - unfold trigger. destruct (arrays s !! h) as [cfs|]; [|exact H].
    now destruct (cleanup cfs (mem s)) as [[[b l] m']|].
  - now apply reinit_inv.
  - unfold deliver. destruct (sigCh (gC s)) as [[|sg q]|] eqn:Hq; try exact H.
    destruct (watched n s); [|exact H].
    destruct H as [H1 H2]. split; [exact H1|discriminate].
  - exact H.
  - apply get_inv in H. unfold Exit.
    destruct (cleanup _ _) as [[[b l] m']|]; [|exact H].
    destruct (negb (code =? -1)); [exact H|]. now destruct b.
  - unfold waitForSignal. destruct (listeners s) as [|k] eqn:Hl; [exact H|].
    destruct (sigCh (gC s)) as [[|sg q]|] eqn:Hq; try exact H.
    assert (H' : listener_inv (set_sigCh (Some q) s)).
    { destruct H as [H1 H2]. split; [exact H1|discriminate]. }
    destruct (cleanup _ _) as [[[b l] m']|]; [|exact H'].
    destruct sg; [|exact H']. now destruct (ExitWithSignalCode (world m')).
  - now apply get_inv.
  - unfold deferFuncs. now destruct (mapM convert fns).
Qed.

Lemma reachable_inv s : reachable s -> listener_inv s.
Proof.
  induction 1 as [u|c s _ IH].
  - split; [simpl; lia|reflexivity].
  - now apply next_inv.
Qed.

(** C8. In every state the process can reach, at most one goroutine runs
    [waitForSignal].  Once the channel exists, [reinit] without [force]
    changes nothing, [get] leaves goroutine, channel and registration as
    they are, and [reinit] with [force] starts no goroutine, keeps the
    channel and leaves it registered for the new signals only (the default
    ones when none are given). *)
Theorem listener_started_at_most_once s :
  reachable s ->
  (listeners s <= 1)%nat /\
  (forall signals : list os_Signal,
     sigCh (gC s) <> None -> reinit false signals s = s) /\
  (sigCh (gC s) <> None ->
     listeners (get s) = listeners s /\ sigCh (gC (get s)) = sigCh (gC s) /\
     handlers (get s) = handlers s) /\
  (forall signals : list os_Signal,
     sigCh (gC s) <> None ->
     listeners (reinit true signals s) = listeners s /\
     sigCh (gC (reinit true signals s)) = sigCh (gC s) /\
     handlers (reinit true signals s) =
     [if (length signals =? 0)%nat then DefaultSignals (world (mem s)) else signals]).
Proof.
  intros Hr. split; [exact (proj1 (reachable_inv _ Hr))|].
  split; [|split].
  - intros signals Hc. unfold reinit.
    destruct (sigCh (gC s)) as [q|] eqn:Hq; [reflexivity|congruence].
  - intros Hc. unfold get, reinit. destruct (onceDone (gC s)); [auto|].
    destruct (sigCh (gC s)) as [q|] eqn:Hq; [|congruence].
    simpl. now rewrite Hq.
  - intros signals Hc. unfold reinit.
    destruct (sigCh (gC s)) as [q|] eqn:Hq; [|congruence].
    simpl. auto.
Qed.

(** ** Batches whose callables all return *)

Lemma exec_returning cf m err cf' m' :
  (forall f, In f (pending [cf]) -> forall w, exists r w', f w = (Returns r, w')) ->
  exec cf m = (err, cf', m') -> fn cf' = None.
Proof.
  intros Hret. unfold exec. destruct cf as [[f|]]; simpl.
  - destruct (Hret f (or_introl eq_refl) (world m)) as (r & w' & ->).
    now intros [= <- <- <-].
  - now intros [= <- <- <-].
Qed.

(** A pass in which no callable panics leaves nothing pending. *)
Lemma sweep_consumes cfs :
  (forall f, In f (pending cfs) -> forall w, exists r w', f w = (Returns r, w')) ->
  forall m, pending (sweep cfs m).1.2 = [].
Proof.
  induction cfs as [|cf cfs IH]; intros Hret m; [reflexivity|].
  rewrite pending_cons in Hret. cbn [sweep].
  specialize (IH (fun f Hf => Hret f (in_or_app _ _ _ (or_intror Hf))) m).
  destruct (sweep cfs m) as [[b l] m1]. simpl in IH.
  destruct (exec cf m1) as [[err cf'] m2] eqn:He.
  apply exec_returning in He; [|intros f Hf; apply Hret, in_or_app; now left].
  destruct err; cbn [fst snd]; rewrite pending_cons, IH, app_nil_r;
    unfold pending; simpl; now rewrite He.
Qed.

(** X6. When no callable of the batch ever panics, the closure returned by
    [Defer] calls each of them on its first call, the last argument's first,
    and its second call changes nothing at all. *)
Lemma trigger_twice_when_all_return (fns : list arg) s (h : nat) s1 s2 :
  (forall f, In f (registered fns) -> forall w, exists r w', f w = (Returns r, w')) ->
  Defer fns s = Done h s1 ->
  trigger h s1 = Done tt s2 ->
  calls (log (mem s2)) = calls (log (mem s1)) ++ rev (registered fns) /\
  trigger h s2 = Done tt s2.
Proof.
  intros Hret HD HT.
  unfold Defer in HD. apply deferFuncs_array in HD as (cfs & _ & Hp & Hl).
  destruct (trigger_calls _ _ _ Hl) as (s2' & HT' & Hc).
  rewrite HT in HT'. injection HT' as <-. rewrite Hp in Hc. split; [exact Hc|].
  rewrite (trigger_done _ _ _ Hl) in HT. injection HT as <-.
  eapply trigger_idle.
  - simpl. apply list_lookup_insert_eq. now apply lookup_lt_Some in Hl.
  - apply sweep_consumes. now rewrite Hp.
Qed.

(** ** [Exit] after the closure *)

Lemma Exit_sweep (code : Z) s :
  Exit code s =
  let '(erred, cfs', m') := sweep (closers (gC s)) (mem s) in
  Exits (if code =? -1
         then if erred then ExitCodeErr (world m') else ExitCodeOk (world m')
         else code)
        (set_closers cfs' (set_mem m' (get s))).
Proof.
  unfold Exit. rewrite get_closers, get_mem, cleanup_sweep.
  destruct (sweep (closers (gC s)) (mem s)) as [[erred cfs'] m'].
  destruct (code =? -1); simpl; [|reflexivity]. now destruct erred.
Qed.

(** X7. The entries [deferFuncs] appends to [c.closers] are copies: the
    closure does not consume them, and [Exit] after the closure calls every
    callable stored for the batch, the last argument's first, and then what
    was pending before the batch was registered. *)
Lemma Exit_after_trigger_calls_again (fns : list arg) s (h : nat) s1 s2 (code : Z) :
  Defer fns s = Done h s1 ->
  trigger h s1 = Done tt s2 ->
  calls (log (mem (after (Exit code s2)))) =
  calls (log (mem s2)) ++ rev (registered fns) ++ rev (pending (closers (gC s))).
Proof.
  intros HD HT.
  assert (Hc : closers (gC s2) = closers (gC s1)).
  { rewrite <- (trigger_closers h s1). now rewrite HT. }
  unfold Defer in HD. apply deferFuncs_done in HD as (cfs & Hcv & _ & ->).
  simpl in Hc. rewrite get_closers in Hc.
  rewrite Exit_sweep, Hc.
  destruct (sweep (closers (gC s) ++ cfs) (mem s2)) as [[b l] m'] eqn:Hs.
  apply sweep_calls in Hs.
  assert (Hlog : mem (after (Exits (A:=unit)
              (if code =? -1
               then if b then ExitCodeErr (world m') else ExitCodeOk (world m')
               else code) (set_closers l (set_mem m' (get s2))))) = m') by reflexivity.
  rewrite Hlog, Hs. unfold pending at 1. rewrite omap_app, rev_app_distr.
  fold (pending cfs). fold (pending (closers (gC s))).
  now rewrite (convert_registered _ _ Hcv).
Qed.

(** ** Further properties of a pass *)

Lemma sweep_entries cfs :
  forall m b cfs' m',
    sweep cfs m = (b, cfs', m') ->
    Forall2 (fun cf cf' => cf' = cf \/ fn cf' = None) cfs cfs'.
Proof.
  induction cfs as [|cf cfs IH]; intros m b cfs' m'; cbn [sweep].
  - intros [= <- <- <-]. constructor.
  - destruct (sweep cfs m) as [[b1 l1] m1] eqn:Hs.
    destruct (exec cf m1) as [[err cf1] m2] eqn:He.
    apply exec_pending in He. specialize (IH _ _ _ _ Hs).
    assert (Hcf : cf1 = cf \/ fn cf1 = None).
    { destruct He as [->| ->]; auto. }
    destruct err; intros [= <- <- <-]; now constructor.
Qed.

Lemma exec_reports cf m err cf' m' :
  exec cf m = (err, cf', m') -> reports (log m') = reports (log m).
Proof.
  unfold exec, reports. destruct cf as [[f|]]; simpl.
  - destruct (f (world m)) as [[r|p] w]; intros [= <- <- <-]; simpl;
      rewrite omap_app; simpl; now rewrite app_nil_r.
  - now intros [= <- <- <-].
Qed.

Lemma exec_OnError cf m err cf' m' :
  (forall f, In f (pending [cf]) -> forall w, OnError (f w).2 = OnError w) ->
  exec cf m = (err, cf', m') -> OnError (world m') = OnError (world m).
Proof.
  intros Hkeep. unfold exec. destruct cf as [[f|]]; simpl.
  - pose proof (Hkeep f (or_introl eq_refl) (world m)) as Hw.
    destruct (f (world m)) as [[r|p] w]; intros [= <- <- <-]; exact Hw.
  - now intros [= <- <- <-].
Qed.

(** X1. A pass over a slice that is a concatenation is the pass over the
    later part followed by the pass over the earlier part, started in the
    state the first one ends in; its result is the disjunction of the two
    results.  Cleaning up the whole stack is therefore the same as cleaning
    up the batches one by one, the last registered first. *)
Theorem cleanup_app cfs1 cfs2 m (b2 : bool) cfs2' m2 (b1 : bool) cfs1' m1 :
  cleanup cfs2 m = Some (b2, cfs2', m2) ->
  cleanup cfs1 m2 = Some (b1, cfs1', m1) ->
  cleanup (cfs1 ++ cfs2) m = Some (b1 || b2, cfs1' ++ cfs2', m1).
Proof.
  rewrite !cleanup_sweep. intros [= H2] [= H1].
  now rewrite sweep_app, H2, H1.
Qed.

(** X2. When the callable of an entry returns (a nil error or an error),
    the entry is consumed; a returned error makes the result of the pass
    [true] and is handed to [OnError] when that is set, a nil error does
    neither; the entries not yet visited are cleaned up next. *)
Theorem cleanup_consumes_returning cfs1 cf cfs2 m (b2 : bool) cfs2' m2 f
    (err : option error) w :
  fn cf = Some f ->
  cleanup cfs2 m = Some (b2, cfs2', m2) ->
  f (world m2) = (Returns err, w) ->
  let m3 := mkMem w (log m2 ++ [Ran f err]) in
  exists (b1 : bool) cfs1' m',
    cleanup cfs1 (match err with Some e => report e m3 | None => m3 end)
    = Some (b1, cfs1', m') /\
    cleanup (cfs1 ++ cf :: cfs2) m =
    Some (b1 || (b2 || match err with Some _ => true | None => false end),
          cfs1' ++ mkCloserFunc None :: cfs2', m') /\
    (forall e k, err = Some e -> OnError w = Some k -> In (k, e) (reports (log m'))).
Proof.
  intros Hf Hc Hr m3. rewrite cleanup_sweep in Hc. injection Hc as Hc.
  pose proof (exec_returns _ _ _ _ _ Hf Hr) as He.
  pose proof (sweep_middle cfs1 _ _ _ _ _ _ _ _ _ Hc He) as Hm.
  cbn zeta in Hm. fold m3 in Hm. rewrite !cleanup_sweep, Hm.
  destruct (sweep cfs1 _) as [[b1 l1] m'] eqn:Hs. exists b1, l1, m'.
  split; [reflexivity|]. split; [now destruct err|].
  destruct (sweep_log _ _ _ _ _ Hs) as [new Hn].
  intros e k -> Hk. rewrite Hn. unfold report, m3. simpl. rewrite Hk. simpl.
  unfold reports. rewrite !omap_app. simpl.
  apply in_or_app. left. apply in_or_app. right. now left.
Qed.

(** When neither the pending callables nor the functions stored in
    [OnError] assign to [OnError], a pass calls [OnError] once for each call
    that ended in an error, in the order of the calls, and not at all when
    [OnError] is nil. *)
Lemma sweep_reports cfs :
  (forall f, In f (pending cfs) -> forall w, OnError (f w).2 = OnError w) ->
  (forall k e w, OnError (sinkBody k e w) = OnError w) ->
  forall m b cfs' m',
    sweep cfs m = (b, cfs', m') ->
    OnError (world m') = OnError (world m) /\
    exists errs : list error,
      failures (log m') = failures (log m) ++ errs /\
      reports (log m') = reports (log m) ++
        match OnError (world m) with
        | Some k => map (pair k) errs
        | None => []
        end.
Proof.
  intros Hkeep Hsink.
  induction cfs as [|cf cfs IH]; intros m b cfs' m'; cbn [sweep].
  - intros [= <- <- <-]. split; [reflexivity|]. exists [].
    destruct (OnError (world m)); simpl; now rewrite !app_nil_r.
  - rewrite pending_cons in Hkeep.
    destruct (sweep cfs m) as [[b1 l1] m1] eqn:Hs.
    destruct (exec cf m1) as [[err cf1] m2] eqn:He.
    destruct (IH (fun f Hf => Hkeep f (in_or_app _ _ _ (or_intror Hf))) _ _ _ _ Hs)
      as (Ho & errs & Hfl & Hrp).
    pose proof (exec_OnError _ _ _ _ _
                  (fun f Hf => Hkeep f (in_or_app _ _ _ (or_introl Hf))) He) as Ho2.
    pose proof (exec_reports _ _ _ _ _ He) as Hr2.
    pose proof (exec_failures _ _ _ _ _ He) as Hf2.
    destruct err as [e|]; intros [= <- <- <-].
    + rewrite report_failures, Hf2, Hfl, <- app_assoc.
      unfold report. rewrite Ho2, Ho.
      destruct (OnError (world m)) as [k|] eqn:Hk; simpl.
      * rewrite Hsink. split; [congruence|]. exists (errs ++ [e]).
        split; [reflexivity|]. unfold reports. rewrite omap_app. simpl.
        fold (reports (log m2)). rewrite Hr2, Hrp, map_app, <- app_assoc.
        reflexivity.
      * split; [congruence|]. exists (errs ++ [e]). split; [reflexivity|].
        now rewrite Hr2, Hrp.
    + split; [congruence|]. exists errs. rewrite Hf2, Hfl, Hr2, Hrp. simpl.
      now rewrite app_nil_r.
Qed.

(** X3. When neither the pending callables of a slice nor the functions
    stored in [OnError] assign to [OnError], a pass calls [OnError] once for
    each call that ended in an error, in the order of the calls; when
    [OnError] is nil it reports nothing. *)
Theorem cleanup_reports_each_failure_once cfs m (b : bool) cfs' m' :
  (forall f, In f (pending cfs) -> forall w, OnError (f w).2 = OnError w) ->
  (forall k e w, OnError (sinkBody k e w) = OnError w) ->
  cleanup cfs m = Some (b, cfs', m') ->
  exists errs : list error,
    failures (log m') = failures (log m) ++ errs /\
    (b = true <-> errs <> []) /\
    reports (log m') = reports (log m) ++
      match OnError (world m) with
      | Some k => map (pair k) errs
      | None => []
      end.
Proof.
  intros Hkeep Hsink Hc. rewrite cleanup_sweep in Hc. injection Hc as Hc.
  destruct (sweep_reports _ Hkeep Hsink _ _ _ _ Hc) as (_ & errs & Hf & Hr).
  destruct (sweep_errored _ _ _ _ _ Hc) as (errs' & Hf' & Hb).
  assert (errs' = errs) as -> by (rewrite Hf in Hf'; now apply app_inv_head in Hf').
  eauto.
Qed.

Lemma restore_pass (x : Process) :
  set_closers (closers (gC x)) (set_mem (mem x) x) = x.
Proof. now destruct x as [m [ch cl o] a hd n]. Qed.

(** X4. When no callable of the stack is pending (nothing was registered,
    or every entry is consumed), [Exit] calls nothing, changes nothing
    beyond what [get] does, and ends the process with [ExitCodeOk] for the
    code [-1] and with [code] otherwise. *)
Theorem Exit_nothing_pending (code : Z) s :
  pending (closers (gC s)) = [] ->
  Exit code s =
  Exits (if code =? -1 then ExitCodeOk (world (mem s)) else code) (get s).
Proof.
  intros Hp. rewrite Exit_sweep, (sweep_idle _ _ Hp).
  assert (H : set_closers (closers (gC s)) (set_mem (mem s) (get s)) = get s).
  { rewrite <- (get_closers s), <- (get_mem s). apply restore_pass. }
  now rewrite H.
Qed.

(** ** The stack over the life of the process *)

Lemma reinit_closers force (signals : list os_Signal) s :
  closers (gC (reinit force signals s)) = closers (gC s).
Proof.
  unfold reinit. destruct (sigCh (gC s)); [|reflexivity]. now destruct force.
Qed.

Lemma Defer_done (fns : list arg) s (h : nat) s1 :
  Defer fns s = Done h s1 ->
  exists cfs, mapM convert fns = Some cfs /\ pending cfs = registered fns /\
    h = length (arrays s) /\
    closers (gC s1) = closers (gC s) ++ cfs /\
    arrays s1 = arrays s ++ [cfs] /\
    mem s1 = mem s.
Proof.
  unfold Defer. intros HD. apply deferFuncs_done in HD as (cfs & Hc & -> & ->).
  exists cfs. simpl. rewrite get_arrays, get_closers, get_mem.
  repeat split; auto using convert_registered.
Qed.

(** What a step does to [c.closers]: it appends to it, or it runs a pass
    over it. *)
Lemma next_closers (c : call) s :
  (exists more, closers (gC (next c s)) = closers (gC s) ++ more) \/
  (exists m, closers (gC (next c s)) = (sweep (closers (gC s)) m).1.2).
Proof.
  destruct c as [fns|h|signals|n|g|code| | |fns]; simpl.
  - left. unfold Defer, deferFuncs. destruct (mapM convert fns) as [cfs|]; simpl.
    + rewrite get_closers. eauto.
    + rewrite get_closers. exists []. now rewrite app_nil_r.
  - left. rewrite trigger_closers. exists []. now rewrite app_nil_r.
  - left. rewrite reinit_closers. exists []. now rewrite app_nil_r.
  - left. exists []. rewrite app_nil_r. unfold deliver.
    destruct (sigCh (gC s)) as [[|sg q]|]; try reflexivity.
    now destruct (watched n s).
  - left. exists []. now rewrite app_nil_r.
  - right. exists (mem s). rewrite Exit_sweep.
    now destruct (sweep (closers (gC s)) (mem s)) as [[b l] m'].
  - unfold waitForSignal. destruct (listeners s);
      [left; exists []; now rewrite app_nil_r|].
    destruct (sigCh (gC s)) as [[|sg q]|];
      try (left; exists []; now rewrite app_nil_r).
    right. exists (mem s). simpl. rewrite cleanup_sweep.
    destruct (sweep (closers (gC s)) (mem s)) as [[b l] m'].
    destruct sg; [|reflexivity]. now destruct (ExitWithSignalCode (world m')).
  - left. rewrite get_closers. exists []. now rewrite app_nil_r.
  - left. unfold deferFuncs. destruct (mapM convert fns) as [cfs|]; simpl; eauto.
    exists []. now rewrite app_nil_r.
Qed.

(** X5. No step removes or replaces an entry of [c.closers]: an entry of
    the stack is, after any step, still at its index, and it is either
    unchanged or consumed.  So the stack never shrinks, a consumed entry
    stays consumed, and no entry ever gets another callable. *)
Theorem closers_entries_persist (c : call) s (i : nat) cf :
  closers (gC s) !! i = Some cf ->
  exists cf', closers (gC (next c s)) !! i = Some cf' /\
              (cf' = cf \/ fn cf' = None).
Proof.
  intros Hi. destruct (next_closers c s) as [[more ->]|[m ->]].
  - exists cf. split; [|now left]. now apply lookup_app_l_Some.
  - destruct (sweep (closers (gC s)) m) as [[b l] m'] eqn:Hs. simpl.
    apply sweep_entries in Hs.
    destruct (Forall2_lookup_l _ _ _ _ _ Hs Hi) as (cf' & H1 & H2). eauto.
Qed.

(** X8. [Exit] after two calls of [Defer] calls the callables of the second
    batch first (its last argument first), then those of the first batch,
    then whatever was pending before; the two closures are different. *)
Theorem Exit_runs_later_batches_first (fns1 fns2 : list arg) s (h1 : nat) s1
    (h2 : nat) s2 (code : Z) :
  Defer fns1 s = Done h1 s1 ->
  Defer fns2 s1 = Done h2 s2 ->
  h1 <> h2 /\
  calls (log (mem (after (Exit code s2)))) =
  calls (log (mem s2)) ++ rev (registered fns2) ++ rev (registered fns1)
    ++ rev (pending (closers (gC s))).
Proof.
  intros H1 H2.
  apply Defer_done in H1 as (cfs1 & _ & Hp1 & -> & Hc1 & Ha1 & _).
  apply Defer_done in H2 as (cfs2 & _ & Hp2 & -> & Hc2 & _ & _).
  split.
  - rewrite Ha1, length_app. simpl. lia.
  - rewrite Exit_sweep, Hc2, Hc1.
    destruct (sweep _ (mem s2)) as [[b l] m'] eqn:Hs. apply sweep_calls in Hs.
    assert (Hlog : mem (after (Exits (A:=unit)
              (if code =? -1
               then if b then ExitCodeErr (world m') else ExitCodeOk (world m')
               else code) (set_closers l (set_mem m' (get s2))))) = m') by reflexivity.
    rewrite Hlog, Hs. unfold pending at 1. rewrite !omap_app, !rev_app_distr.
    fold (pending cfs1). fold (pending cfs2). fold (pending (closers (gC s))).
    now rewrite Hp1, Hp2.
Qed.

(** ** Channel, goroutine and registration *)

Lemma reinit_subscription force (signals : list os_Signal) s :
  subscription_inv s -> subscription_inv (reinit force signals s).
Proof.
  unfold subscription_inv, reinit.
  destruct (sigCh (gC s)) as [q|] eqn:Hq; simpl.
  - destruct force; simpl; rewrite ?Hq; [|auto].
    intros [Hl _]. eauto.
  - intros (-> & -> & _). eauto.
Qed.

Lemma get_subscription s : subscription_inv s -> subscription_inv (get s).
Proof.
  intros H. unfold get. destruct (onceDone (gC s)) eqn:Ho; [exact H|].
  apply (reinit_subscription false []) in H.
  unfold subscription_inv in *. simpl.
  destruct (sigCh (gC (reinit false [] s))) eqn:Hq; [exact H|].
  exfalso. revert Hq. unfold reinit.
  destruct (sigCh (gC s)) as [q|] eqn:Hs; simpl; [congruence|discriminate].
Qed.

Lemma next_subscription (c : call) s :
  subscription_inv s -> subscription_inv (next c s).
Proof.
  intros H. destruct c as [fns|h|signals|n|g|code| | |fns]; simpl.
  - apply get_subscription in H. unfold Defer, deferFuncs.
    now destruct (mapM convert fns).
  - unfold trigger. destruct (arrays s !! h) as [cfs|]; [|exact H].
    now destruct (cleanup cfs (mem s)) as [[[b l] m']|].
  - now apply reinit_subscription.
  - unfold deliver. destruct (sigCh (gC s)) as [[|sg q]|] eqn:Hq; try exact H.
    destruct (watched n s); [|exact H].
    unfold subscription_inv in *. now rewrite Hq in H.
  - exact H.
  - apply get_subscription in H. unfold Exit.
    destruct (cleanup _ _) as [[[b l] m']|]; [|exact H].
    destruct (negb (code =? -1)); [exact H|]. now destruct b.
  - unfold waitForSignal. destruct (listeners s) as [|k] eqn:Hl; [exact H|].
    destruct (sigCh (gC s)) as [[|sg q]|] eqn:Hq; try exact H.
    assert (H' : subscription_inv (set_sigCh (Some q) s)).
    { unfold subscription_inv in *. now rewrite Hq in H. }
    destruct (cleanup _ _) as [[[b l] m']|]; [|exact H'].
    destruct sg; [|exact H']. now destruct (ExitWithSignalCode (world m')).
  - now apply get_subscription.
  - unfold deferFuncs. now destruct (mapM convert fns).
Qed.

(** X9. In every state the process can reach: before the channel is made,
    nothing is registered with [os/signal], no goroutine listens and the
    [sync.Once] has not fired; once it is made, exactly one goroutine
    listens and the channel is registered through exactly one [Notify]
    call, so the watched signals are those of one signal set. *)
Theorem subscription_kept s :
  reachable s ->
  match sigCh (gC s) with
  | None => listeners s = 0%nat /\ handlers s = [] /\ onceDone (gC s) = false
  | Some _ => listeners s = 1%nat /\ exists signals, handlers s = [signals]
  end.
Proof.
  induction 1 as [u|c s _ IH].
  - simpl. auto.
  - exact (next_subscription c s IH).
Qed.

Lemma reachable_subscription s : reachable s -> subscription_inv s.
Proof.
  induction 1 as [u|c s _ IH].
  - simpl. unfold subscription_inv. simpl. auto.
  - exact (next_subscription c s IH).
Qed.

(** X10. [SetSignals] replaces the registration, it does not add to it:
    two calls in a row leave the process as the second call alone would. *)
Theorem SetSignals_last_wins (a b : list os_Signal) s :
  reachable s ->
  after (SetSignals b (after (SetSignals a s))) = after (SetSignals b s).
Proof.
  intros Hr. apply reachable_subscription in Hr. unfold subscription_inv in Hr.
  simpl. unfold reinit at 1 3.
  destruct s as [m [ch cl o] arr hd n]. simpl in *.
  destruct ch as [q|]; simpl.
  - destruct Hr as [-> [sg ->]]. reflexivity.
  - destruct Hr as (-> & -> & ->). reflexivity.
Qed.

Ltac kept :=
  simpl; first [solve [auto] | split; [|split]; congruence].

(** X11. Once the channel exists, only [SetSignals] changes what it is
    registered for: every other step, an assignment to [DefaultSignals]
    included, keeps the registration, the channel and the goroutine. *)
Theorem subscription_changes_only_by_SetSignals (c : call) s :
  sigCh (gC s) <> None ->
  (forall signals, c <> call_SetSignals signals) ->
  handlers (next c s) = handlers s /\
  sigCh (gC (next c s)) <> None /\
  listeners (next c s) = listeners s.
Proof.
  intros Hc Hne.
  assert (Hget : handlers (get s) = handlers s /\ sigCh (gC (get s)) <> None /\
                 listeners (get s) = listeners s).
  { unfold get, reinit. destruct (onceDone (gC s)); [auto|].
    destruct (sigCh (gC s)) as [q|] eqn:Hq; [|congruence].
    simpl. rewrite Hq. auto. }
  destruct c as [fns|h|signals|n|g|code| | |fns]; simpl.
  - unfold Defer, deferFuncs. now destruct (mapM convert fns).
  - unfold trigger. destruct (arrays s !! h) as [cfs|]; [|kept].
    now destruct (cleanup cfs (mem s)) as [[[b l] m']|].
  - now destruct (Hne signals).
  - unfold deliver. destruct (sigCh (gC s)) as [[|sg q]|] eqn:Hq; try kept.
    destruct (watched n s); [|kept]. simpl. repeat split; discriminate.
  - kept.
  - unfold Exit. destruct (cleanup _ _) as [[[b l] m']|]; [|exact Hget].
    destruct (negb (code =? -1)); [exact Hget|]. now destruct b.
  - unfold waitForSignal. destruct (listeners s) as [|k] eqn:Hl; [kept|].
    destruct (sigCh (gC s)) as [[|sg q]|] eqn:Hq; try kept.
    simpl. destruct (cleanup _ _) as [[[b l] m']|]; [|kept].
    destruct sg; [|kept]. destruct (ExitWithSignalCode (world m')); kept.
  - exact Hget.
  - unfold deferFuncs. now destruct (mapM convert fns).
Qed.

(** X12. The first use of the package in a process that has not called
    [SetSignals]: [get] makes the channel, starts the one listening
    goroutine and registers the channel for [DefaultSignals] as they are at
    that moment; this is the state [Defer] and [Exit] work in. *)
Theorem first_use_subscribes_defaults s :
  reachable s ->
  sigCh (gC s) = None ->
  sigCh (gC (get s)) = Some [] /\
  listeners (get s) = 1%nat /\
  handlers (get s) = [DefaultSignals (world (mem s))] /\
  onceDone (gC (get s)) = true /\
  (forall fns, handlers (after (Defer fns s)) = [DefaultSignals (world (mem s))] /\
               listeners (after (Defer fns s)) = 1%nat) /\
  (forall code, handlers (after (Exit code s)) = [DefaultSignals (world (mem s))] /\
                listeners (after (Exit code s)) = 1%nat).
Proof.
  intros Hr Hc. apply reachable_subscription in Hr. unfold subscription_inv in Hr.
  rewrite Hc in Hr. destruct Hr as (Hl & Hh & Ho).
  assert (Hg : sigCh (gC (get s)) = Some [] /\ listeners (get s) = 1%nat /\
               handlers (get s) = [DefaultSignals (world (mem s))] /\
               onceDone (gC (get s)) = true).
  { unfold get, reinit. rewrite Ho, Hc. simpl. now rewrite Hl, Hh. }
  destruct Hg as (G1 & G2 & G3 & G4). repeat split; auto.
  - unfold Defer, deferFuncs. now destruct (mapM convert fns).
  - unfold Defer, deferFuncs. now destruct (mapM convert fns).
  - rewrite Exit_sweep. now destruct (sweep _ _) as [[[|] l] m']; destruct (code =? -1).
  - rewrite Exit_sweep. now destruct (sweep _ _) as [[[|] l] m']; destruct (code =? -1).
Qed.

(** X13. The scenario of [TestSignal] for any start state, any stored code
    and any watched signal: in a fresh process whose program has assigned
    to its variables so that [ExitWithSignalCode] is false, register a
    callable that stores [v] in [ExitCodeErr]; when a signal of
    [DefaultSignals] arrives, the listening goroutine ends the process with
    [v], because the code is read after the pass. *)
Theorem signal_exits_with_stored_code (u : UserState) (g : World -> World) (v n : Z) :
  let s := next (call_assign g) (start u) in
  ExitWithSignalCode (world (mem s)) = false ->
  watches n (DefaultSignals (world (mem s))) = true ->
  exists (h : nat) s1 s2,
    Defer [A_func (Some (store_ExitCodeErr v))] s = Done h s1 /\
    waitForSignal (deliver n s1) = Exits v s2.
Proof.
  intros s He Hw. simpl in He, Hw.
  eexists _, _, _. split; [reflexivity|].
  unfold deliver, watched. simpl. rewrite Hw. simpl.
  unfold waitForSignal. simpl. rewrite He. reflexivity.
Qed.

(** X14. [Defer] without arguments still initialises the package and
    returns a closure, but it registers nothing: [c.closers] and the
    program state are as before, and calling the closure changes nothing. *)
Theorem Defer_nothing s :
  exists s1,
    Defer [] s = Done (length (arrays s)) s1 /\
    closers (gC s1) = closers (gC s) /\
    mem s1 = mem s /\
    listeners s1 = listeners (get s) /\
    trigger (length (arrays s)) s1 = Done tt s1.
Proof.
  eexists. split; [unfold Defer, deferFuncs; simpl; now rewrite get_arrays|].
  simpl. rewrite app_nil_r, get_closers, get_mem.
  repeat split.
  apply (trigger_idle _ _ []); [|reflexivity].
  simpl. rewrite <- (get_arrays s). now rewrite list_lookup_middle.
Qed.

(** C3. For any arguments that [Defer] accepts, the closure it returns,
    called right away, calls the callables it stored one after the other,
    the last argument's first and each once; and whenever it is called, it
    calls the callables still pending in its array, the last of the array
    first and each once. *)
Theorem trigger_runs_batch_in_reverse (fns : list arg) s (h : nat) s1 :
  Defer fns s = Done h s1 ->
  (exists s2, trigger h s1 = Done tt s2 /\
     calls (log (mem s2)) = calls (log (mem s1)) ++ rev (registered fns)) /\
  (forall s' cfs, arrays s' !! h = Some cfs ->
     exists s2, trigger h s' = Done tt s2 /\
       calls (log (mem s2)) = calls (log (mem s')) ++ rev (pending cfs)).
Proof.
  intros HD. split.
  - unfold Defer in HD. apply deferFuncs_array in HD as (cfs & _ & Hp & Hl).
    rewrite <- Hp. exact (trigger_calls _ _ _ Hl).
  - intros s' cfs. apply trigger_calls.
Qed.

End Properties.

(** * Concrete runs *)

#[local] Existing Instance Demo.types.
#[local] Existing Instance Demo.runtime.

(** [TestCloser]: the closure called twice leaves [vals] as [[0; 1]]. *)
Example TestCloser :
  let fn := trigger 0 in
  Demo.vals (after (fn (after (fn (Demo.registering Demo.test_batch))))) = [0; 1].
Proof. reflexivity. Qed.

(** [TestSignal]: the registered callable sets [ExitCodeErr] to 55, the
    process gets [SIGTERM] and ends with 55. *)
Example TestSignal :
  let s := Demo.registering [A_func (Some (Demo.set_ExitCodeErr 55))] in
  Demo.code_of (waitForSignal (deliver 15 s)) = Some 55.
Proof. reflexivity. Qed.

(** With [ExitWithSignalCode] set, the same process ends with the number of
    the signal. *)
Example signal_number_as_exit_code :
  let s := next (call_assign (Demo.set_ExitWithSignalCode true))
             (Demo.registering [A_func (Some (Demo.set_ExitCodeErr 55))]) in
  Demo.code_of (waitForSignal (deliver 15 s)) = Some 15 /\
  Demo.code_of (waitForSignal (deliver 9 s)) = None.
Proof. split; reflexivity. Qed.

(** A nil [func() error] is stored as an entry that is consumed from the
    start; a nil [func()] is wrapped and panics when it is called. *)
Example nil_functions :
  registered [A_func_error None] = [] /\
  Demo.vals (after (trigger 0 (Demo.registering [A_func None]))) = [] /\
  failures (log (mem (after (trigger 0 (Demo.registering [A_func None])))))
  = [RuntimeError "invalid memory address or nil pointer dereference"].
Proof. repeat split; reflexivity. Qed.

Example Exit_with_42_after_a_failure :
  let s := Demo.registering [A_func_error (Some (Demo.fail_with 3 "no"))] in
  Demo.code_of (Exit 42 s) = Some 42 /\ Demo.code_of (Exit (-1) s) = Some 1.
Proof. split; reflexivity. Qed.

Example Exit_without_failure :
  Demo.code_of (Exit (-1) (Demo.registering Demo.test_batch)) = Some 0.
Proof. reflexivity. Qed.

(** C1. A callable registered with [Defer] and run through the closure is
    still pending in [c.closers], which holds a copy of the entry, and
    [Exit] calls it a second time. *)
Theorem trigger_then_Exit_runs_twice :
  let s1 := Demo.registering [A_func (Some (Demo.append_val 1))] in
  let s2 := after (trigger 0 s1) in
  let s3 := after (Exit (-1) s2) in
  Demo.vals s2 = [1] /\
  pending <$> (arrays s2 !! 0%nat) = Some [] /\
  length (pending (closers (gC s2))) = 1%nat /\
  Demo.vals s3 = [1; 1] /\
  length (calls (log (mem s3))) = 2%nat.
Proof. repeat split; reflexivity. Qed.

(** C2. A callable that panics stays in its entry: [exec] hands back the
    entry unchanged, and executing the entry again calls the callable
    again and ends in the same error. *)
Theorem exec_keeps_panicking_callable :
  let cf := Demo.entry Demo.boom in
  let '(err1, cf1, m1) := exec cf (mem Demo.fresh) in
  let '(err2, cf2, m2) := exec cf1 m1 in
  err1 = Some (ErrorString "panic: boom") /\
  cf1 = cf /\
  err2 = Some (ErrorString "panic: boom") /\
  user (world m1) = [7] /\
  user (world m2) = [7; 7] /\
  length (calls (log m2)) = 2%nat.
Proof. repeat split; reflexivity. Qed.

(** C4. The closure of a batch in which a callable panics calls that
    callable again on its second call. *)
Theorem trigger_twice_reruns_panicked :
  let s1 := Demo.registering [A_func (Some (Demo.append_val 1)); A_func (Some Demo.boom)] in
  let s2 := after (trigger 0 s1) in
  let s3 := after (trigger 0 s2) in
  Demo.vals s2 = [7; 1] /\
  Demo.vals s3 = [7; 1; 7] /\
  length (calls (log (mem s2))) = 2%nat /\
  length (calls (log (mem s3))) = 3%nat.
Proof. repeat split; reflexivity. Qed.

Lemma trigger_runs_batch_in_reverse_witness :
  let s1 := Demo.registering Demo.test_batch in
  Defer Demo.test_batch Demo.fresh = Done 0%nat s1 /\
  (exists s2, trigger 0 s1 = Done tt s2 /\
     calls (log (mem s2)) = calls (log (mem s1)) ++ rev (registered Demo.test_batch)) /\
  (forall s' cfs, arrays s' !! 0%nat = Some cfs ->
     exists s2, trigger 0 s' = Done tt s2 /\
       calls (log (mem s2)) = calls (log (mem s')) ++ rev (pending cfs)).
Proof.
  split; [reflexivity|].
  apply (trigger_runs_batch_in_reverse Demo.test_batch Demo.fresh). reflexivity.
Defined.

Lemma Defer_rejects_unsupported_witness :
  let fns := [A_func (Some (Demo.append_val 1)); A_other (Some (VString "x"))] in
  In (A_other (Some (VString "x"))) fns /\
  Defer fns Demo.fresh = Panics unsupported (get Demo.fresh) /\
  closers (gC (get Demo.fresh)) = closers (gC Demo.fresh) /\
  arrays (get Demo.fresh) = arrays Demo.fresh /\
  mem (get Demo.fresh) = mem Demo.fresh.
Proof.
  split; [simpl; auto|].
  apply (Defer_rejects_unsupported _ (Some (VString "x"))). simpl; auto.
Defined.

Lemma waitForSignal_code_witness :
  let s := deliver 15 (Demo.registering [A_func (Some (Demo.set_ExitCodeErr 55))]) in
  listeners s = 1%nat /\
  sigCh (gC s) = Some [SIGTERM] /\
  exists (b : bool) cfs' m',
    cleanup (closers (gC s)) (mem s) = Some (b, cfs', m') /\
    calls (log m') = calls (log (mem s)) ++ rev (pending (closers (gC s))) /\
    waitForSignal s =
    Exits (if ExitWithSignalCode (world m') then 15 else ExitCodeErr (world m'))
          (set_closers cfs' (set_mem m' (set_sigCh (Some []) s))).
Proof.
  split; [reflexivity|]. split; [reflexivity|].
  apply (waitForSignal_code _ SIGTERM [] 0); reflexivity.
Defined.

Lemma cleanup_survives_panic_witness :
  let cfs1 := [Demo.entry (Demo.append_val 1)] in
  let cf := Demo.entry Demo.boom in
  let cfs2 := [Demo.entry (Demo.append_val 2)] in
  let m := Demo.mem_with_sink in
  let f := wrap_func (Some Demo.boom) in
  let p := VString "boom" in
  let m2 := mkMem (Demo.push 2 (world m)) [Ran (wrap_func (Some (Demo.append_val 2))) None] in
  let w := Demo.push 7 (world m2) in
  let m3 := mkMem w (log m2 ++ [Ran f (Some (recovered p))]) in
  fn cf = Some f /\
  cleanup cfs2 m = Some (false, [mkCloserFunc None], m2) /\
  f (world m2) = (Panic p, w) /\
  exists (b1 : bool) cfs1' m',
    cleanup cfs1 (report (recovered p) m3) = Some (b1, cfs1', m') /\
    cleanup (cfs1 ++ cf :: cfs2) m = Some (true, cfs1' ++ cf :: [mkCloserFunc None], m') /\
    (forall k, OnError w = Some k ->
       report (recovered p) m3 =
       mkMem (sinkBody k (recovered p) w) (log m3 ++ [Reported k (recovered p)])) /\
    calls (log m') = calls (log (report (recovered p) m3)) ++ rev (pending cfs1) /\
    calls (log m') = calls (log m) ++ rev (pending (cfs1 ++ cf :: cfs2)).
Proof.
  split; [reflexivity|]. split; [reflexivity|]. split; [reflexivity|].
  apply (cleanup_survives_panic
           [Demo.entry (Demo.append_val 1)] (Demo.entry Demo.boom)
           [Demo.entry (Demo.append_val 2)] Demo.mem_with_sink false);
    reflexivity.
Defined.

Lemma panic_value_reported_witness :
  let cfs1 := [Demo.entry (Demo.append_val 1)] in
  let cf := Demo.entry Demo.boom in
  let cfs2 := [Demo.entry (Demo.append_val 2)] in
  let m := Demo.mem_with_sink in
  let f := wrap_func (Some Demo.boom) in
  let m2 := mkMem (Demo.push 2 (world m)) [Ran (wrap_func (Some (Demo.append_val 2))) None] in
  let w := Demo.push 7 (world m2) in
  let err := ErrorString "panic: boom" in
  fn cf = Some f /\
  cleanup cfs2 m = Some (false, [mkCloserFunc None], m2) /\
  f (world m2) = (Panic (VString "boom"), w) /\
  OnError w = Some tt /\
  exists (b1 : bool) cfs1' m',
    cleanup cfs1 (mkMem (sinkBody tt err w)
                    (log m2 ++ [Ran f (Some err); Reported tt err]))
    = Some (b1, cfs1', m') /\
    cleanup (cfs1 ++ cf :: cfs2) m = Some (true, cfs1' ++ cf :: [mkCloserFunc None], m') /\
    In (tt, err) (reports (log m')).
Proof.
  split; [reflexivity|]. split; [reflexivity|]. split; [reflexivity|].
  split; [reflexivity|].
  apply (panic_value_reported
           [Demo.entry (Demo.append_val 1)] (Demo.entry Demo.boom)
           [Demo.entry (Demo.append_val 2)] Demo.mem_with_sink false
           _ _ _ (VString "boom") _ tt);
    reflexivity.
Defined.

Lemma listener_started_at_most_once_witness :
  let s := Demo.registering Demo.test_batch in
  reachable s /\
  (listeners s <= 1)%nat /\
  (forall signals : list os_Signal,
     sigCh (gC s) <> None -> reinit false signals s = s) /\
  (sigCh (gC s) <> None ->
     listeners (get s) = listeners s /\ sigCh (gC (get s)) = sigCh (gC s) /\
     handlers (get s) = handlers s) /\
  (forall signals : list os_Signal,
     sigCh (gC s) <> None ->
     listeners (reinit true signals s) = listeners s /\
     sigCh (gC (reinit true signals s)) = sigCh (gC s) /\
     handlers (reinit true signals s) =
     [if (length signals =? 0)%nat then DefaultSignals (world (mem s)) else signals]).
Proof.
  assert (Hr : reachable (Demo.registering Demo.test_batch)).
  { exact (reach_next (call_Defer Demo.test_batch) _ (reach_start [])). }
  split; [exact Hr|].
  exact (listener_started_at_most_once _ Hr).
Defined.

(** ** Runs of the further properties *)

Lemma cleanup_app_witness :
  let cfs1 := [Demo.entry (Demo.append_val 1)] in
  let cfs2 := [Demo.entry Demo.boom; Demo.entry (Demo.append_val 2)] in
  let m := Demo.mem_with_sink in
  exists (b2 : bool) cfs2' m2 (b1 : bool) cfs1' m1,
    cleanup cfs2 m = Some (b2, cfs2', m2) /\
    cleanup cfs1 m2 = Some (b1, cfs1', m1) /\
    cleanup (cfs1 ++ cfs2) m = Some (b1 || b2, cfs1' ++ cfs2', m1).
Proof.
  eexists _, _, _, _, _, _. split; [reflexivity|]. split; [reflexivity|].
  eapply (cleanup_app [Demo.entry (Demo.append_val 1)]
           [Demo.entry Demo.boom; Demo.entry (Demo.append_val 2)]
           Demo.mem_with_sink); reflexivity.
Defined.

Lemma cleanup_consumes_returning_witness :
  let cfs1 := [Demo.entry (Demo.append_val 1)] in
  let f := Demo.fail_with 3 "no" in
  let cf := mkCloserFunc (Some f) in
  let cfs2 := [Demo.entry (Demo.append_val 2)] in
  let m := Demo.mem_with_sink in
  let err := Some (ErrorString "no") in
  exists (b2 : bool) cfs2' m2 w,
    fn cf = Some f /\
    cleanup cfs2 m = Some (b2, cfs2', m2) /\
    f (world m2) = (Returns err, w) /\
    exists (b1 : bool) cfs1' m',
      cleanup cfs1 (report (ErrorString "no") (mkMem w (log m2 ++ [Ran f err])))
      = Some (b1, cfs1', m') /\
      cleanup (cfs1 ++ cf :: cfs2) m =
      Some (b1 || (b2 || true), cfs1' ++ mkCloserFunc None :: cfs2', m') /\
      (forall e k, err = Some e -> OnError w = Some k -> In (k, e) (reports (log m'))).
Proof.
  eexists _, _, _, _. split; [reflexivity|]. split; [reflexivity|].
  split; [reflexivity|].
  eapply (cleanup_consumes_returning
           [Demo.entry (Demo.append_val 1)]
           (mkCloserFunc (Some (Demo.fail_with 3 "no")))
           [Demo.entry (Demo.append_val 2)] Demo.mem_with_sink
           _ _ _ (Demo.fail_with 3 "no") (Some (ErrorString "no")));
    reflexivity.
Defined.

Lemma cleanup_reports_each_failure_once_witness :
  let cfs := [Demo.entry (Demo.append_val 1);
              mkCloserFunc (Some (Demo.fail_with 3 "no"));
              Demo.entry Demo.boom] in
  let m := Demo.mem_with_sink in
  (forall f, In f (pending cfs) -> forall w, OnError (f w).2 = OnError w) /\
  (forall k e w, OnError (sinkBody k e w) = OnError w) /\
  exists (b : bool) cfs' m',
    cleanup cfs m = Some (b, cfs', m') /\
    exists errs : list error,
      failures (log m') = failures (log m) ++ errs /\
      (b = true <-> errs <> []) /\
      reports (log m') = reports (log m) ++
        match OnError (world m) with
        | Some k => map (pair k) errs
        | None => []
        end.
Proof.
  assert (Hkeep : forall f,
            In f (pending [Demo.entry (Demo.append_val 1);
                           mkCloserFunc (Some (Demo.fail_with 3 "no"));
                           Demo.entry Demo.boom]) ->
            forall w, OnError (f w).2 = OnError w).
  { intros f [<-|[<-|[<-|[]]]] w; reflexivity. }
  assert (Hsink : forall (k : SinkRef) (e : error) (w : World),
            OnError (sinkBody k e w) = OnError w).
  { intros k e w. reflexivity. }
  split; [exact Hkeep|]. split; [exact Hsink|].
  eexists _, _, _. split; [reflexivity|].
  eapply (cleanup_reports_each_failure_once _ Demo.mem_with_sink _ _ _ Hkeep Hsink).
  reflexivity.
Defined.

Example failures_reported_in_order :
  let cfs := [Demo.entry (Demo.append_val 1);
              mkCloserFunc (Some (Demo.fail_with 3 "no"));
              Demo.entry Demo.boom] in
  (fun m => reports (log m)) <$> (snd <$> cleanup cfs Demo.mem_with_sink)
  = Some [(tt, ErrorString "panic: boom"); (tt, ErrorString "no")].
Proof. reflexivity. Qed.

Lemma Exit_nothing_pending_witness :
  pending (closers (gC Demo.fresh)) = [] /\
  Exit (-1) Demo.fresh = Exits (ExitCodeOk (world (mem Demo.fresh))) (get Demo.fresh).
Proof.
  split; [reflexivity|].
  eapply (Exit_nothing_pending (-1) Demo.fresh). reflexivity.
Defined.

Lemma closers_entries_persist_witness :
  let s := Demo.registering Demo.test_batch in
  let cf := Demo.entry (Demo.append_val 1) in
  closers (gC s) !! 0%nat = Some cf /\
  exists cf', closers (gC (next (call_Exit (-1)) s)) !! 0%nat = Some cf' /\
              (cf' = cf \/ fn cf' = None).
Proof.
  split; [reflexivity|].
  eapply (closers_entries_persist (call_Exit (-1)) (Demo.registering Demo.test_batch) 0).
  reflexivity.
Defined.

Lemma trigger_twice_when_all_return_witness :
  let s1 := Demo.registering Demo.test_batch in
  let s2 := after (trigger 0 s1) in
  (forall f, In f (registered Demo.test_batch) ->
     forall w, exists r w', f w = (Returns r, w')) /\
  Defer Demo.test_batch Demo.fresh = Done 0%nat s1 /\
  trigger 0 s1 = Done tt s2 /\
  calls (log (mem s2)) = calls (log (mem s1)) ++ rev (registered Demo.test_batch) /\
  trigger 0 s2 = Done tt s2.
Proof.
  assert (Hret : forall f, In f (registered Demo.test_batch) ->
                   forall w, exists r w', f w = (Returns r, w')).
  { intros f [<-|[<-|[]]] w; eexists _, _; reflexivity. }
  split; [exact Hret|]. split; [reflexivity|]. split; [reflexivity|].
  eapply (trigger_twice_when_all_return Demo.test_batch Demo.fresh 0 _ _ Hret);
    reflexivity.
Defined.

Lemma Exit_after_trigger_calls_again_witness :
  let s1 := Demo.registering Demo.test_batch in
  let s2 := after (trigger 0 s1) in
  Defer Demo.test_batch Demo.fresh = Done 0%nat s1 /\
  trigger 0 s1 = Done tt s2 /\
  calls (log (mem (after (Exit (-1) s2)))) =
  calls (log (mem s2)) ++ rev (registered Demo.test_batch)
    ++ rev (pending (closers (gC Demo.fresh))).
Proof.
  split; [reflexivity|]. split; [reflexivity|].
  eapply (Exit_after_trigger_calls_again Demo.test_batch Demo.fresh 0); reflexivity.
Defined.

Lemma Exit_runs_later_batches_first_witness :
  let fns2 := [A_func (Some Demo.boom)] in
  let s1 := Demo.registering Demo.test_batch in
  let s2 := after (Defer fns2 s1) in
  Defer Demo.test_batch Demo.fresh = Done 0%nat s1 /\
  Defer fns2 s1 = Done 1%nat s2 /\
  0%nat <> 1%nat /\
  calls (log (mem (after (Exit 3 s2)))) =
  calls (log (mem s2)) ++ rev (registered fns2) ++ rev (registered Demo.test_batch)
    ++ rev (pending (closers (gC Demo.fresh))).
Proof.
  split; [reflexivity|]. split; [reflexivity|].
  eapply (Exit_runs_later_batches_first Demo.test_batch [A_func (Some Demo.boom)]
           Demo.fresh 0 _ 1 _ 3); reflexivity.
Defined.

Lemma subscription_kept_witness :
  let s := Demo.registering Demo.test_batch in
  reachable s /\
  match sigCh (gC s) with
  | None => listeners s = 0%nat /\ handlers s = [] /\ onceDone (gC s) = false
  | Some _ => listeners s = 1%nat /\ exists signals, handlers s = [signals]
  end.
Proof.
  assert (Hr : reachable (Demo.registering Demo.test_batch)).
  { exact (reach_next (call_Defer Demo.test_batch) _ (reach_start [])). }
  split; [exact Hr|].
  exact (subscription_kept _ Hr).
Defined.

Lemma SetSignals_last_wins_witness :
  reachable Demo.fresh /\
  after (SetSignals [] (after (SetSignals [SIGINT] Demo.fresh)))
  = after (SetSignals [] Demo.fresh).
Proof.
  assert (Hr : reachable Demo.fresh) by exact (reach_start []).
  split; [exact Hr|].
  exact (SetSignals_last_wins [SIGINT] [] Demo.fresh Hr).
Defined.

Lemma subscription_changes_only_by_SetSignals_witness :
  let s := Demo.registering Demo.test_batch in
  let c := call_assign (Demo.set_OnError (Some tt)) in
  sigCh (gC s) <> None /\
  (forall signals, c <> call_SetSignals signals) /\
  handlers (next c s) = handlers s /\
  sigCh (gC (next c s)) <> None /\
  listeners (next c s) = listeners s.
Proof.
  assert (Hc : sigCh (gC (Demo.registering Demo.test_batch)) <> None)
    by discriminate.
  assert (Hne : forall signals,
            call_assign (Demo.set_OnError (Some tt)) <> call_SetSignals signals)
    by discriminate.
  split; [exact Hc|]. split; [exact Hne|].
  exact (subscription_changes_only_by_SetSignals _ _ Hc Hne).
Defined.

Lemma first_use_subscribes_defaults_witness :
  let s := Demo.fresh in
  reachable s /\
  sigCh (gC s) = None /\
  sigCh (gC (get s)) = Some [] /\
  listeners (get s) = 1%nat /\
  handlers (get s) = [DefaultSignals (world (mem s))] /\
  onceDone (gC (get s)) = true /\
  (forall fns, handlers (after (Defer fns s)) = [DefaultSignals (world (mem s))] /\
               listeners (after (Defer fns s)) = 1%nat) /\
  (forall code, handlers (after (Exit code s)) = [DefaultSignals (world (mem s))] /\
                listeners (after (Exit code s)) = 1%nat).
Proof.
  assert (Hr : reachable Demo.fresh) by exact (reach_start []).
  split; [exact Hr|]. split; [reflexivity|].
  exact (first_use_subscribes_defaults Demo.fresh Hr eq_refl).
Defined.

Lemma signal_exits_with_stored_code_witness :
  let s := next (call_assign (fun w => w)) Demo.fresh in
  ExitWithSignalCode (world (mem s)) = false /\
  watches 15 (DefaultSignals (world (mem s))) = true /\
  exists (h : nat) s1 s2,
    Defer [A_func (Some (store_ExitCodeErr 55))] s = Done h s1 /\
    waitForSignal (deliver 15 s1) = Exits 55 s2.
Proof.
  split; [reflexivity|]. split; [reflexivity|].
  eapply (@signal_exits_with_stored_code Demo.types Demo.runtime [] (fun w => w) 55 15);
    reflexivity.
Defined.
